(** * cement: the ConfigObj configuration handler

    A shallow embedding of [cement/ext/ext_configobj.py], the adapter
    that exposes a ConfigObj store through cement's [IConfig] interface,
    together with the properties of its operations. *)

From Stdlib Require Import ZArith.
From stdpp Require Import base tactics option list strings.

Local Open Scope string_scope.
Local Open Scope list_scope.
Set Warnings "-register-all".

(** ** Python values *)

(** The values that travel through the handler.  Only one distinction is
    ever made by the code, [type(v) == dict]; everything else is carried
    around untouched. *)
Inductive pyval : Type :=
| PNone
| PBool (b : bool)
| PInt (n : Z)
| PStr (s : string)
| PList (l : list pyval)
| PDict (d : list (string * pyval)).

(** A Python [dict] with string keys, written down in its iteration
    order.  A subscript reads the first binding of the key. *)
Abbreviation dict := (list (string * pyval)).

(** [type(v) == dict] *)
Definition is_dict (v : pyval) : bool :=
  match v with PDict _ => true | _ => false end.

(** ** Exceptions and results *)

Inductive exn : Type :=
| KeyError (key : string)
| ConfigObjError (msg : string).

Inductive result (A : Type) : Type :=
| Ok (a : A)
| Raise (e : exn).
Arguments Ok {A} a.
Arguments Raise {A} e.

#[global] Instance result_ret : MRet result := fun _ a => Ok a.
#[global] Instance result_bind : MBind result := fun _ _ f r =>
  match r with Ok a => f a | Raise e => Raise e end.

(** ** Ordered string-keyed mappings *)

Section mapping.
Context {V : Type}.
Implicit Types (m : list (string * V)) (k : string) (v : V).

(** [m.keys()] *)
Definition mkeys m : list string := m.*1.

(** the binding of [k], if any *)
Fixpoint mlookup k m : option V :=
  match m with
  | [] => None
  | (k', v) :: m' => if decide (k = k') then Some v else mlookup k m'
  end.

(** [m[k]] *)
Definition getitem m k : result V :=
  match mlookup k m with
  | Some v => Ok v
  | None => Raise (KeyError k)
  end.

(** [m[k] = v]: an existing key keeps its place, a new one goes last *)
Fixpoint setitem m k v : list (string * V) :=
  match m with
  | [] => [(k, v)]
  | (k', v') :: m' =>
      if decide (k = k') then (k, v) :: m' else (k', v') :: setitem m' k v
  end.
End mapping.
Arguments mkeys {V} m : simpl never.

(** ** The configuration store *)

(** Modelled from the spec: the [ConfigObj] base class, an external
    library that is not part of the sources.  Following the data model,
    a configuration is an ordered mapping from section names to
    sections, and a section is an ordered mapping from key names to
    values; [self.sections] lists the names in the order they came in.
    A value is stored and read back as it is, a mapping included.  What
    the library offers beyond this data model (settings outside of any
    section, string interpolation, comments) has no counterpart here. *)
Abbreviation section := (list (string * pyval)).
Abbreviation config := (list (string * section)).

(** ** The file system, as far as [parse_file] looks at it *)

Record filesystem : Type := {
  (** [os.path.expanduser] *)
  expanduser : string → string;
  (** [os.path.abspath] *)
  abspath : string → string;
  (** [os.path.exists] *)
  path_exists : string → bool;
  (** [ConfigObj(path).dict()]: the parsed file as plain dictionaries,
      or the parser's error *)
  read_config : string → result dict;
}.

(** ** Methods that change the store *)

(** A method that writes to [self] takes the store and gives back its
    outcome and the store it leaves behind; an exception leaves the
    store as it was when it was raised. *)
Definition M (A : Type) : Type := config → result A * config.

#[global] Instance M_ret : MRet M := λ _ a self, (Ok a, self).
#[global] Instance M_bind : MBind M := λ _ _ f m self,
  match m self with
  | (Ok a, self') => f a self'
  | (Raise e, self') => (Raise e, self')
  end.

(** an expression that only reads [self] *)
Definition reading {A} (f : config → result A) : M A := λ self, (f self, self).

(** [for x in xs: body(x)] *)
Fixpoint for_each {A} (xs : list A) (body : A → M unit) : M unit :=
  match xs with
  | [] => mret ()
  | x :: xs' => body x ≫= λ _, for_each xs' body
  end.

Module ConfigObjConfigHandler.

(** [get_sections]: [self.sections] *)
Definition get_sections (self : config) : list string := mkeys self.

(** [keys]: [self[section].keys()] *)
Definition keys (self : config) (section : string) : result (list string) :=
  sec ← getitem self section;
  mret (mkeys sec).

(** [get]: [self[section][key]] *)
Definition get (self : config) (section key : string) : result pyval :=
  sec ← getitem self section;
  getitem sec key.

(** [set]: [self[section][key] = value]; the section object is
    updated in place, so the store sees the new binding *)
Definition set (section key : string) (value : pyval) : M unit := λ self,
  match getitem self section with
  | Ok sec => (Ok (), setitem self section (setitem sec key value))
  | Raise e => (Raise e, self)
  end.

(** [has_section] *)
Definition has_section (self : config) (section : string) : bool :=
  if bool_decide (section ∈ get_sections self) then true else false.

(** [add_section] *)
Definition add_section (section : string) : M unit := λ self,
  if negb (has_section self section)
  then (Ok (), setitem self section [])
  else (Ok (), self).

(** [get_section_dict]: the loop over [self.keys(section)], filling
    the local [dict_obj] *)
Fixpoint get_section_dict_loop (self : config) (section : string)
    (ks : list string) (dict_obj : dict) : result dict :=
  match ks with
  | [] => mret dict_obj
  | key :: ks' =>
      v ← get self section key;
      get_section_dict_loop self section ks' (setitem dict_obj key v)
  end.

Definition get_section_dict (self : config) (section : string) : result dict :=
  ks ← keys self section;
  get_section_dict_loop self section ks [].

(** [merge]: the body of the inner loop,
    [for key in list(dict_obj[section].keys())], with [inner] standing
    for [dict_obj[section]] *)
Definition merge_key (override : bool) (section : string) (inner : dict)
    (key : string) : M unit :=
  value ← reading (λ _, getitem inner key);
  if override then set section key value
  else
    (* only set it if the key doesn't exist *)
    ks ← reading (λ self, keys self section);
    if bool_decide (key ∉ ks) then set section key value
    else mret ().

(** [merge]: the body of the outer loop,
    [for section in list(dict_obj.keys())] *)
Definition merge_section (override : bool) (dict_obj : dict)
    (section : string) : M unit :=
  v ← reading (λ _, getitem dict_obj section);
  match v with
  | PDict inner =>
      sections ← reading (λ self, mret (get_sections self));
      (if bool_decide (section ∉ sections)
       then add_section section else mret ()) ≫= λ _,
      for_each (mkeys inner) (merge_key override section inner)
  | _ => mret ()
  end.

(** [merge] *)
Definition merge (dict_obj : dict) (override : bool) : M unit :=
  for_each (mkeys dict_obj) (merge_section override dict_obj).

(** [parse_file]: the debug lines written to [LOG], and the outcome *)
Definition parse_file (fs : filesystem) (file_path : string)
  : config → list string * (result bool * config) := λ self,
  let file_path := abspath fs (expanduser fs file_path) in
  if path_exists fs file_path then
    ( ["config file '" +:+ file_path +:+ "' exists, loading settings..."],
      (_c ← reading (λ _, read_config fs file_path);
       merge _c true ≫= λ _,
       mret true) self )
  else
    ( ["config file '" +:+ file_path +:+ "' does not exist, skipping..."],
      (Ok false, self) ).

End ConfigObjConfigHandler.

(** ** What [merge] is to compute *)

(** The binding a key ends up with, given the one the section held
    ([old]) and the one that comes in ([new]). *)
Definition merged_val (override : bool) (old new : option pyval) : option pyval :=
  if override
  then match new with Some v => Some v | None => old end
  else match old with Some v => Some v | None => new end.

(** [sec'] is [old] with the mapping [inner] merged into it. *)
Definition merged_from (override : bool) (old : section) (inner : dict)
    (sec' : section) : Prop :=
  ∀ K, mlookup K sec' = merged_val override (mlookup K old) (mlookup K inner).

(** What [merge] leaves under the name [S]: the merged section when
    [dict_obj[S]] is a mapping, and what was there before otherwise. *)
Definition merge_post (override : bool) (dict_obj : dict)
    (self self' : config) (S : string) : Prop :=
  match mlookup S dict_obj with
  | Some (PDict inner) =>
      ∃ sec', mlookup S self' = Some sec'
              ∧ merged_from override (default [] (mlookup S self)) inner sec'
  | _ => mlookup S self' = mlookup S self
  end.

(** Names are unique: no section is listed twice, and no key twice
    within a section. *)
Definition well_formed (self : config) : Prop :=
  NoDup (mkeys self) ∧ ∀ S sec, mlookup S self = Some sec → NoDup (mkeys sec).

(** Nothing is left for [merge] to do: every section [dict_obj] names
    is there, and every key it gives is there too -- with the incoming
    value when [override] is on, with any value when it is off. *)
Definition nothing_to_merge (override : bool) (dict_obj : dict)
    (self : config) : Prop :=
  ∀ S inner, mlookup S dict_obj = Some (PDict inner) →
    ∃ sec, mlookup S self = Some sec
           ∧ ∀ K v, mlookup K inner = Some v →
               if override then mlookup K sec = Some v
               else is_Some (mlookup K sec).

(** ** Sample data *)

Module Sample.
(** the store after [merge({"sec": {"k": "v1"}})] on an empty handler *)
Definition store : config := [("sec", [("k", PStr "v1")])].

Definition incoming : dict :=
  [("sec", PDict [("k", PStr "v2"); ("nested", PDict [("a", PInt 1)])]);
   ("debug", PBool true);
   ("new", PDict [("x", PStr "1")])].

(** a file system that holds one configuration file *)
Definition fs : filesystem := {|
  expanduser p := p;
  abspath p := "/etc/" +:+ p;
  path_exists p := bool_decide (p = "/etc/app.conf");
  read_config p := Ok incoming
|}.
End Sample.

(** ** Facts about ordered mappings *)

Section mapping_facts.
Context {V : Type}.
Implicit Types (m : list (string * V)) (k : string) (v : V).

Lemma mlookup_setitem m k k' v :
  mlookup k' (setitem m k v) = if decide (k' = k) then Some v else mlookup k' m.
Proof.
  induction m as [|[k0 v0] m IH]; simpl.
  - repeat case_decide; congruence.
  - repeat (case_decide; simpl); subst; try congruence.
Qed.

Lemma mlookup_setitem_eq m k v : mlookup k (setitem m k v) = Some v.
Proof. rewrite mlookup_setitem. by case_decide. Qed.

Lemma mlookup_setitem_ne m k k' v :
  k' ≠ k → mlookup k' (setitem m k v) = mlookup k' m.
Proof. intros. rewrite mlookup_setitem. by case_decide. Qed.

Lemma mkeys_cons k v m : mkeys ((k, v) :: m) = k :: mkeys m.
Proof. done. Qed.

Lemma elem_of_mkeys m k : k ∈ mkeys m ↔ is_Some (mlookup k m).
Proof.
  induction m as [|[k0 v0] m IH]; simpl.
  - split; [by intros ?%elem_of_nil | by intros [??]].
  - rewrite mkeys_cons, elem_of_cons, IH. case_decide as Hk.
    + split; [by eauto | by left].
    + split; [by intros [?|?] | by right].
Qed.

Lemma not_elem_of_mkeys m k : k ∉ mkeys m ↔ mlookup k m = None.
Proof. rewrite elem_of_mkeys, eq_None_not_Some. done. Qed.

Lemma elem_of_mkeys_setitem m k k' v :
  k' ∈ mkeys (setitem m k v) ↔ k' = k ∨ k' ∈ mkeys m.
Proof.
  rewrite !elem_of_mkeys, mlookup_setitem.
  case_decide as Hk.
  - split; [by left | by eauto].
  - split; [by right | by intros [?|?]].
Qed.

Lemma mkeys_setitem_present m k v :
  k ∈ mkeys m → mkeys (setitem m k v) = mkeys m.
Proof.
  induction m as [|[k0 v0] m IH]; simpl.
  - by intros ?%elem_of_nil.
  - rewrite mkeys_cons. intros Hin. case_decide as Hk.
    + by subst.
    + rewrite mkeys_cons, IH; [done|].
      apply elem_of_cons in Hin as [?|?]; [done..].
Qed.

Lemma mkeys_setitem_absent m k v :
  k ∉ mkeys m → mkeys (setitem m k v) = mkeys m ++ [k].
Proof.
  induction m as [|[k0 v0] m IH]; simpl; [done|].
  rewrite mkeys_cons. intros [? ?]%not_elem_of_cons.
  case_decide; [done|]. by rewrite mkeys_cons, IH.
Qed.

Lemma setitem_setitem m k v v' : setitem (setitem m k v) k v' = setitem m k v'.
Proof.
  induction m as [|[k0 v0] m IH]; simpl.
  - by case_decide.
  - case_decide; simpl; case_decide; try done. by rewrite IH.
Qed.

Lemma setitem_id m k v : mlookup k m = Some v → setitem m k v = m.
Proof.
  induction m as [|[k0 v0] m IH]; simpl; [done|].
  case_decide; [by intros [= ->]; subst | by intros ->%IH].
Qed.

Lemma NoDup_mkeys_setitem m k v : NoDup (mkeys m) → NoDup (mkeys (setitem m k v)).
Proof.
  intros Hnd. destruct (decide (k ∈ mkeys m)).
  - by rewrite mkeys_setitem_present.
  - rewrite mkeys_setitem_absent by done.
    apply NoDup_app. split_and!; [done| |apply NoDup_singleton].
    intros x Hx ->%list_elem_of_singleton. done.
Qed.

Lemma getitem_Ok m k v : getitem m k = Ok v ↔ mlookup k m = Some v.
Proof. unfold getitem. destruct (mlookup k m); split; congruence. Qed.

Lemma getitem_Raise m k e :
  getitem m k = Raise e ↔ mlookup k m = None ∧ e = KeyError k.
Proof.
  unfold getitem. destruct (mlookup k m).
  - split; [done | by intros [? _]].
  - split; [by intros [= <-] | by intros [_ ->]].
Qed.
End mapping_facts.

(** ** The loop rule *)

(** A loop whose body never raises and keeps an invariant, stated over
    the items already visited, runs to its end and establishes the
    invariant for the whole list. *)
Lemma for_each_invariant {A} (I : list A → config → Prop)
    (xs : list A) (body : A → M unit) (self : config) :
  I [] self →
  (∀ visited x s, I visited s → x ∈ xs →
     ∃ s', body x s = (Ok (), s') ∧ I (visited ++ [x]) s') →
  ∃ self', for_each xs body self = (Ok (), self') ∧ I xs self'.
Proof.
  intros Hinit Hbody.
  cut (∀ rest visited s, (∀ x, x ∈ rest → x ∈ xs) → I visited s →
        ∃ s', for_each rest body s = (Ok (), s') ∧ I (visited ++ rest) s').
  { intros Hgen. by apply (Hgen xs [] self). }
  induction rest as [|x rest IH]; intros visited s Hsub Hinv; simpl.
  - exists s. by rewrite app_nil_r.
  - destruct (Hbody visited x s) as (s1 & Hrun & Hinv1);
      [done|apply Hsub; left|].
    destruct (IH (visited ++ [x]) s1) as (s2 & Hrest & Hinv2);
      [by intros y Hy; apply Hsub; right|done|].
    exists s2. unfold mbind, M_bind. rewrite Hrun.
    by rewrite <-app_assoc in Hinv2.
Qed.

Import ConfigObjConfigHandler.

(** ** Reading and writing one section *)

Lemma get_Ok (self : config) (S K : string) (V : pyval) :
  get self S K = Ok V ↔ ∃ sec, mlookup S self = Some sec ∧ mlookup K sec = Some V.
Proof.
  unfold get, mbind, result_bind.
  destruct (getitem self S) as [sec|e] eqn:Hsec.
  - apply getitem_Ok in Hsec. rewrite getitem_Ok, Hsec.
    split; [by eauto|]. by intros (? & [= <-] & ?).
  - apply getitem_Raise in Hsec as [Hsec _]. rewrite Hsec.
    split; [done|]. by intros (? & ? & _).
Qed.

Lemma keys_Ok (self : config) (S : string) (ks : list string) :
  keys self S = Ok ks ↔ ∃ sec, mlookup S self = Some sec ∧ ks = mkeys sec.
Proof.
  unfold keys, mbind, result_bind, mret, result_ret.
  destruct (getitem self S) as [sec|e] eqn:Hsec.
  - apply getitem_Ok in Hsec. rewrite Hsec.
    split; [intros [= <-]; by eauto|]. by intros (? & [= <-] & ->).
  - apply getitem_Raise in Hsec as [Hsec _]. rewrite Hsec.
    split; [done|]. by intros (? & ? & _).
Qed.

Lemma has_section_true (self : config) (S : string) :
  has_section self S = true ↔ S ∈ get_sections self.
Proof. unfold has_section. case_bool_decide; split; done. Qed.

Lemma has_section_false (self : config) (S : string) :
  has_section self S = false ↔ S ∉ get_sections self.
Proof. unfold has_section. case_bool_decide; split; done. Qed.

Lemma elem_of_get_sections (self : config) (S : string) :
  S ∈ get_sections self ↔ is_Some (mlookup S self).
Proof. apply elem_of_mkeys. Qed.

Lemma has_section_ext (self self' : config) (S : string) :
  mlookup S self' = mlookup S self → has_section self' S = has_section self S.
Proof.
  intros Hsame. unfold has_section.
  rewrite (bool_decide_ext (S ∈ get_sections self') (S ∈ get_sections self));
    [done|].
  by rewrite !elem_of_get_sections, Hsame.
Qed.

Lemma set_Ok (self : config) (S K : string) (V : pyval) (sec : section) :
  mlookup S self = Some sec →
  set S K V self = (Ok (), setitem self S (setitem sec K V)).
Proof. intros Hsec. unfold set, getitem. by rewrite Hsec. Qed.

Lemma set_Raise (self : config) (S K : string) (V : pyval) :
  mlookup S self = None → set S K V self = (Raise (KeyError S), self).
Proof. intros Hsec. unfold set, getitem. by rewrite Hsec. Qed.

Lemma add_section_absent (self : config) (S : string) :
  mlookup S self = None → add_section S self = (Ok (), setitem self S []).
Proof.
  intros Hno. unfold add_section.
  by rewrite (proj2 (has_section_false self S)) by by apply not_elem_of_mkeys.
Qed.

Lemma add_section_present (self : config) (S : string) :
  is_Some (mlookup S self) → add_section S self = (Ok (), self).
Proof.
  intros Hyes. unfold add_section.
  by rewrite (proj2 (has_section_true self S)) by by apply elem_of_mkeys.
Qed.

(** ** What [merge] computes *)

Lemma merged_val_again o old new :
  merged_val o (merged_val o old new) new = merged_val o old new.
Proof. by destruct o, old, new. Qed.

Lemma merged_val_None o old : merged_val o old None = old.
Proof. by destruct o, old. Qed.

Lemma merged_from_trans o old mid inner sec' :
  merged_from o old inner mid → merged_from o mid inner sec' →
  merged_from o old inner sec'.
Proof.
  intros H1 H2 K. by rewrite H2, H1, merged_val_again.
Qed.

Lemma merge_key_spec override S inner self sec key v :
  mlookup S self = Some sec → mlookup key inner = Some v →
  merge_key override S inner key self =
    (Ok (), if override then setitem self S (setitem sec key v)
            else if bool_decide (key ∉ mkeys sec)
                 then setitem self S (setitem sec key v) else self).
Proof.
  intros Hsec Hv. unfold merge_key, mbind, M_bind, reading.
  rewrite (proj2 (getitem_Ok inner key v) Hv).
  destruct override; [by apply set_Ok|].
  rewrite (proj2 (keys_Ok self S (mkeys sec))) by eauto.
  case_bool_decide; [by apply set_Ok|done].
Qed.

(** The inner loop: it never raises, touches section [S] only, and
    leaves it merged. *)
Lemma merge_keys_spec override S inner self sec :
  mlookup S self = Some sec →
  ∃ sec', for_each (mkeys inner) (merge_key override S inner) self
            = (Ok (), setitem self S sec')
          ∧ merged_from override sec inner sec'.
Proof.
  intros Hsec.
  pose (I := λ (visited : list string) (s : config),
    ∃ sec1, s = setitem self S sec1 ∧
      ∀ K, mlookup K sec1 =
        if decide (K ∈ visited)
        then merged_val override (mlookup K sec) (mlookup K inner)
        else mlookup K sec).
  destruct (for_each_invariant I (mkeys inner)
              (merge_key override S inner) self) as (s' & Hrun & Hfin).
  - exists sec. split; [by rewrite setitem_id|].
    intros K. case_decide as HK; [by apply elem_of_nil in HK|done].
  - intros visited x s (sec1 & -> & Hinv) Hx.
    apply elem_of_mkeys in Hx as [v Hv].
    rewrite (merge_key_spec override S inner _ sec1 x v)
      by (by rewrite ?mlookup_setitem_eq).
    eexists; split; [done|].
    assert (Hfresh : ∀ K, K ≠ x →
      (if decide (K ∈ visited ++ [x])
       then merged_val override (mlookup K sec) (mlookup K inner)
       else mlookup K sec) = mlookup K sec1).
    { intros K HK. rewrite Hinv.
      destruct (decide (K ∈ visited)) as [Hin|Hout].
      - rewrite decide_True; [done|]. apply elem_of_app. by left.
      - rewrite decide_False; [done|].
        by intros [?|?%list_elem_of_singleton]%elem_of_app. }
    assert (Hx_in : x ∈ visited ++ [x]).
    { apply elem_of_app. right. by apply list_elem_of_singleton. }
    destruct override.
    + exists (setitem sec1 x v). split; [by rewrite setitem_setitem|].
      intros K. rewrite mlookup_setitem. case_decide as HK.
      * subst K. rewrite decide_True by done. simpl. by rewrite Hv.
      * by rewrite Hfresh.
    + case_bool_decide as Hnew.
      * exists (setitem sec1 x v). split; [by rewrite setitem_setitem|].
        intros K. rewrite mlookup_setitem. case_decide as HK; [|by rewrite Hfresh].
        subst K. rewrite decide_True by done.
        apply not_elem_of_mkeys in Hnew. rewrite Hinv in Hnew.
        case_decide; [|by simpl; rewrite Hnew, Hv].
        simpl in Hnew. rewrite Hv in Hnew. by destruct (mlookup x sec).
      * exists sec1. split; [done|].
        intros K. destruct (decide (K = x)) as [->|HK]; [|by rewrite Hfresh].
        rewrite decide_True by done.
        apply elem_of_mkeys in Hnew as [w Hw].
        rewrite Hinv. case_decide; [done|].
        rewrite Hinv, decide_False in Hw by done. by simpl; rewrite Hw.
  - destruct Hfin as (sec' & -> & Hfin). exists sec'. split; [done|].
    intros K. rewrite Hfin. case_decide as HK; [done|].
    apply not_elem_of_mkeys in HK. by rewrite HK, merged_val_None.
Qed.

(** The outer loop body at an entry that holds a mapping. *)
Lemma merge_section_dict override dict_obj S inner self :
  mlookup S dict_obj = Some (PDict inner) →
  ∃ sec', merge_section override dict_obj S self = (Ok (), setitem self S sec')
          ∧ merged_from override (default [] (mlookup S self)) inner sec'.
Proof.
  intros Hd. unfold merge_section, mbind at 1 2 3, M_bind, reading.
  rewrite (proj2 (getitem_Ok dict_obj S _) Hd). simpl.
  case_bool_decide as Hin.
  - apply not_elem_of_mkeys in Hin. rewrite add_section_absent by done.
    destruct (merge_keys_spec override S inner (setitem self S []) [])
      as (sec' & Hrun & Hsec'); [by rewrite mlookup_setitem_eq|].
    exists sec'. rewrite Hrun, setitem_setitem, Hin. done.
  - apply elem_of_mkeys in Hin as [sec Hsec].
    destruct (merge_keys_spec override S inner self sec)
      as (sec' & Hrun & Hsec'); [done|].
    exists sec'. unfold mret, M_ret. rewrite Hrun, Hsec. done.
Qed.

(** The outer loop body at an entry that holds anything else. *)
Lemma merge_section_other override dict_obj S v self :
  mlookup S dict_obj = Some v → is_dict v = false →
  merge_section override dict_obj S self = (Ok (), self).
Proof.
  intros Hd Hv. unfold merge_section, mbind, M_bind, reading.
  rewrite (proj2 (getitem_Ok dict_obj S _) Hd). by destruct v.
Qed.

(** [merge] never raises, and leaves the store described by
    [merge_post] at every name. *)
Lemma merge_spec (self : config) (dict_obj : dict) (override : bool) :
  ∃ self', merge dict_obj override self = (Ok (), self')
           ∧ ∀ S, merge_post override dict_obj self self' S.
Proof.
  pose (I := λ (visited : list string) (s : config),
    ∀ S, if decide (S ∈ visited)
         then merge_post override dict_obj self s S
         else mlookup S s = mlookup S self).
  destruct (for_each_invariant I (mkeys dict_obj)
              (merge_section override dict_obj) self) as (s' & Hrun & Hfin).
  - intros S. case_decide as HS; [by apply elem_of_nil in HS|done].
  - intros visited x s Hinv Hx.
    apply elem_of_mkeys in Hx as [v Hv].
    assert (Hx_in : x ∈ visited ++ [x]).
    { apply elem_of_app. right. by apply list_elem_of_singleton. }
    assert (Hother : ∀ S s1, S ≠ x → mlookup S s1 = mlookup S s →
      if decide (S ∈ visited ++ [x])
      then merge_post override dict_obj self s1 S
      else mlookup S s1 = mlookup S self).
    { intros S s1 HS Hs1. specialize (Hinv S).
      destruct (decide (S ∈ visited)) as [Hin|Hout].
      - rewrite decide_True by (apply elem_of_app; by left).
        unfold merge_post in *. by rewrite Hs1.
      - rewrite decide_False
          by by intros [?|?%list_elem_of_singleton]%elem_of_app.
        by rewrite Hs1. }
    destruct (is_dict v) eqn:Hdict.
    + destruct v as [| | | | |inner]; try done.
      destruct (merge_section_dict override dict_obj x inner s Hv)
        as (sec' & Hstep & Hsec').
      eexists; split; [done|]. intros S.
      destruct (decide (S = x)) as [->|HS];
        [|by apply Hother; [|rewrite mlookup_setitem_ne]].
      rewrite decide_True by done. unfold merge_post. rewrite Hv.
      exists sec'. split; [by rewrite mlookup_setitem_eq|].
      specialize (Hinv x). case_decide; [|by rewrite <-Hinv].
      unfold merge_post in Hinv. rewrite Hv in Hinv.
      destruct Hinv as (mid & Hmid & Hfrom). rewrite Hmid in Hsec'.
      by eapply merged_from_trans.
    + rewrite (merge_section_other override dict_obj x v s Hv Hdict).
      eexists; split; [done|]. intros S.
      destruct (decide (S = x)) as [->|HS]; [|by apply Hother].
      rewrite decide_True by done. specialize (Hinv x).
      case_decide; [done|]. unfold merge_post. rewrite Hv. by destruct v.
  - exists s'. split; [done|]. intros S. specialize (Hfin S).
    case_decide as HS; [done|]. apply not_elem_of_mkeys in HS.
    unfold merge_post. by rewrite HS.
Qed.

(** ** Unique names and listing order are kept *)

Lemma well_formed_nil : well_formed [].
Proof. split; [apply NoDup_nil_2|done]. Qed.

Lemma well_formed_setitem (self : config) (S : string) (sec' : section) :
  well_formed self → NoDup (mkeys sec') → well_formed (setitem self S sec').
Proof.
  intros [Hnames Hkeys] Hsec'. split; [by apply NoDup_mkeys_setitem|].
  intros S' sec. rewrite mlookup_setitem.
  case_decide; [by intros [= <-]|by apply Hkeys].
Qed.

Lemma well_formed_set (self self' : config) (S K : string) (V : pyval) (r : result ()) :
  well_formed self → set S K V self = (r, self') → well_formed self'.
Proof.
  intros Hwf. unfold set, getitem.
  destruct (mlookup S self) as [sec|] eqn:Hsec; intros [= _ <-]; [|done].
  apply well_formed_setitem; [done|].
  apply NoDup_mkeys_setitem. by apply (proj2 Hwf S).
Qed.

Lemma well_formed_add_section (self self' : config) (S : string) (r : result ()) :
  well_formed self → add_section S self = (r, self') → well_formed self'.
Proof.
  intros Hwf. unfold add_section.
  destruct (negb (has_section self S)); intros [= _ <-]; [|done].
  apply well_formed_setitem; [done|apply NoDup_nil_2].
Qed.

Lemma well_formed_merge (self self' : config) (dict_obj : dict) (override : bool) :
  well_formed self → merge dict_obj override self = (Ok (), self') →
  well_formed self'.
Proof.
  intros Hwf Hrun. unfold merge in Hrun.
  destruct (for_each_invariant (λ _ s, well_formed s) (mkeys dict_obj)
              (merge_section override dict_obj) self) as (s' & Hrun' & Hfin);
    [done| |congruence].
  clear self Hwf Hrun. intros _ S self Hwf [v Hv]%elem_of_mkeys.
  destruct (is_dict v) eqn:Hdict.
  2: { rewrite (merge_section_other override dict_obj S v self Hv Hdict). by eauto. }
  destruct v as [| | | | |inner]; try done.
  destruct (merge_section_dict override dict_obj S inner self Hv)
    as (sec' & Hstep & Hfrom).
  rewrite Hstep. eexists; split; [done|].
  apply well_formed_setitem; [done|].
  (* the keys of the merged section: redo the inner loop with the
     invariant on the section itself *)
  clear Hfrom. revert Hstep.
  unfold merge_section, mbind at 1 2 3, M_bind, reading.
  rewrite (proj2 (getitem_Ok dict_obj S _) Hv). simpl.
  assert (∃ s0, (if bool_decide (S ∉ get_sections self)
                 then add_section S else mret ()) self = (Ok (), s0)
                ∧ well_formed s0 ∧ is_Some (mlookup S s0))
    as (s0 & Hstart & Hwf0 & Hin0).
  { case_bool_decide as Hin.
    - apply not_elem_of_mkeys in Hin. rewrite add_section_absent by done.
      eexists; split_and!; [done| |by rewrite mlookup_setitem_eq].
      apply well_formed_setitem; [done|apply NoDup_nil_2].
    - apply elem_of_mkeys in Hin. by eexists. }
  rewrite Hstart. clear Hstart.
  destruct (for_each_invariant
              (λ _ s, well_formed s ∧ is_Some (mlookup S s)) (mkeys inner)
              (merge_key override S inner) s0) as (s1 & Hrun1 & Hwf1 & [sec1 Hsec1]);
    [done| |].
  - intros _ key s [Hwfs [sec Hsec]] [w Hw]%elem_of_mkeys.
    rewrite (merge_key_spec override S inner s sec key w Hsec Hw).
    eexists; split; [done|].
    assert (Hset : well_formed (setitem s S (setitem sec key w))
                   ∧ is_Some (mlookup S (setitem s S (setitem sec key w)))).
    { split; [|by rewrite mlookup_setitem_eq].
      apply well_formed_setitem; [done|].
      apply NoDup_mkeys_setitem. by apply (proj2 Hwfs S). }
    destruct override; [done|]. case_bool_decide; [done|].
    split; [done|by eauto].
  - rewrite Hrun1. intros [= Heq].
    assert (mlookup S s1 = Some sec') as Hsec'.
    { by rewrite Heq, mlookup_setitem_eq. }
    by apply (proj2 Hwf1 S).
Qed.

(** [merge] lists the sections that were there first and in their
    order, the new ones after them. *)
Lemma merge_keeps_order (self self' : config) (dict_obj : dict) (override : bool) :
  merge dict_obj override self = (Ok (), self') →
  get_sections self `prefix_of` get_sections self'.
Proof.
  intros Hrun. unfold merge in Hrun.
  destruct (for_each_invariant
              (λ _ s, get_sections self `prefix_of` get_sections s)
              (mkeys dict_obj) (merge_section override dict_obj) self)
    as (s' & Hrun' & Hfin); [done| |congruence].
  intros _ S s Hpre [v Hv]%elem_of_mkeys.
  destruct (is_dict v) eqn:Hdict.
  2: { rewrite (merge_section_other override dict_obj S v s Hv Hdict). by eauto. }
  destruct v as [| | | | |inner]; try done.
  destruct (merge_section_dict override dict_obj S inner s Hv)
    as (sec' & -> & _).
  eexists; split; [done|]. unfold get_sections in *.
  destruct (decide (S ∈ mkeys s)).
  - by rewrite mkeys_setitem_present.
  - rewrite mkeys_setitem_absent by done.
    etrans; [done|]. by apply prefix_app_r.
Qed.

(** ** What [get_section_dict] builds *)

Lemma get_section_dict_loop_spec (self : config) (S : string) (sec : section)
    (ks : list string) (acc : dict) :
  mlookup S self = Some sec → (∀ k, k ∈ ks → k ∈ mkeys sec) →
  ∃ dd, get_section_dict_loop self S ks acc = Ok dd
        ∧ (∀ K, mlookup K dd =
                if decide (K ∈ ks) then mlookup K sec else mlookup K acc)
        ∧ (NoDup (mkeys acc) → NoDup (mkeys dd)).
Proof.
  intros Hsec. revert acc.
  induction ks as [|key ks IH]; intros acc Hks; cbn [get_section_dict_loop].
  - exists acc. split_and!; [done| |done].
    intros K. by rewrite decide_False by apply not_elem_of_nil.
  - destruct (proj1 (elem_of_mkeys sec key)) as [v Hv]; [apply Hks; left|].
    rewrite (proj2 (get_Ok self S key v)) by eauto.
    destruct (IH (setitem acc key v)) as (dd & Hrun & Hdd & Hnd).
    { intros k Hk. apply Hks. by right. }
    exists dd. split_and!; [done| |].
    2: { intros Hacc. by apply Hnd, NoDup_mkeys_setitem. }
    intros K. rewrite Hdd, mlookup_setitem.
    destruct (decide (K = key)) as [->|HK].
    + rewrite (decide_True (P := key ∈ key :: ks)) by left.
      by case_decide.
    + destruct (decide (K ∈ ks)) as [Hin|Hout].
      * by rewrite decide_True by by right.
      * by rewrite decide_False by by intros [?|?]%elem_of_cons.
Qed.

Lemma get_section_dict_lookup (self : config) (S : string) (sec : section) :
  mlookup S self = Some sec →
  ∃ dd, get_section_dict self S = Ok dd
        ∧ (∀ K, mlookup K dd = mlookup K sec) ∧ NoDup (mkeys dd).
Proof.
  intros Hsec. unfold get_section_dict.
  rewrite (proj2 (keys_Ok self S (mkeys sec))) by eauto.
  destruct (get_section_dict_loop_spec self S sec (mkeys sec) [] Hsec)
    as (dd & Hrun & Hdd & Hnd); [done|].
  exists dd. split_and!; [done| |apply Hnd, NoDup_nil_2].
  intros K. rewrite Hdd. case_decide as HK; [done|].
  by apply not_elem_of_mkeys in HK.
Qed.

(** ** How the readers fail *)

Lemma get_unfold (self : config) (S K : string) :
  get self S K =
    match mlookup S self with
    | Some sec => getitem sec K
    | None => Raise (KeyError S)
    end.
Proof.
  unfold get. destruct (mlookup S self) as [sec|] eqn:Hsec.
  - by rewrite (proj2 (getitem_Ok self S sec) Hsec).
  - by rewrite (proj2 (getitem_Raise self S (KeyError S)) (conj Hsec eq_refl)).
Qed.

Lemma keys_unfold (self : config) (S : string) :
  keys self S =
    match mlookup S self with
    | Some sec => Ok (mkeys sec)
    | None => Raise (KeyError S)
    end.
Proof.
  unfold keys. destruct (mlookup S self) as [sec|] eqn:Hsec.
  - by rewrite (proj2 (getitem_Ok self S sec) Hsec).
  - by rewrite (proj2 (getitem_Raise self S (KeyError S)) (conj Hsec eq_refl)).
Qed.

(** ** When [merge] changes nothing *)

Lemma merge_key_noop (override : bool) S inner self sec key v :
  mlookup S self = Some sec → mlookup key inner = Some v →
  (if override then mlookup key sec = Some v else is_Some (mlookup key sec)) →
  merge_key override S inner key self = (Ok (), self).
Proof.
  intros Hsec Hv Hthere.
  rewrite (merge_key_spec override S inner self sec key v Hsec Hv).
  destruct override.
  - by rewrite (setitem_id sec key v), (setitem_id self S sec).
  - apply elem_of_mkeys in Hthere. by rewrite bool_decide_eq_false_2 by auto.
Qed.

Lemma merge_noop (self : config) (dict_obj : dict) (override : bool) :
  nothing_to_merge override dict_obj self →
  merge dict_obj override self = (Ok (), self).
Proof.
  intros Hthere. unfold merge.
  destruct (for_each_invariant (λ _ s, s = self) (mkeys dict_obj)
              (merge_section override dict_obj) self) as (s' & Hrun & ->);
    [done| |done].
  intros _ S s -> [v Hv]%elem_of_mkeys. exists self. split; [|done].
  destruct (is_dict v) eqn:Hdict;
    [|by apply (merge_section_other override dict_obj S v)].
  destruct v as [| | | | |inner]; try done.
  destruct (Hthere S inner Hv) as (sec & Hsec & Hkeys).
  unfold merge_section, mbind at 1 2 3, M_bind, reading.
  rewrite (proj2 (getitem_Ok dict_obj S _) Hv). simpl.
  rewrite bool_decide_eq_false_2
    by (intros Hno; apply Hno, elem_of_get_sections; by eauto).
  unfold mret at 1, M_ret.
  destruct (for_each_invariant (λ _ s, s = self) (mkeys inner)
              (merge_key override S inner) self) as (s' & Hrun & ->);
    [done| |done].
  intros _ key s -> [w Hw]%elem_of_mkeys. exists self. split; [|done].
  apply (merge_key_noop override S inner self sec key w); [done..|].
  by apply Hkeys.
Qed.

Lemma merge_leaves_nothing (self self' : config) (dict_obj : dict)
    (override : bool) :
  (∀ S, merge_post override dict_obj self self' S) →
  nothing_to_merge override dict_obj self'
  ∧ nothing_to_merge false dict_obj self'.
Proof.
  intros Hpost.
  assert (Hboth : ∀ S inner, mlookup S dict_obj = Some (PDict inner) →
    ∃ sec, mlookup S self' = Some sec
           ∧ ∀ K v, mlookup K inner = Some v →
               (if override then mlookup K sec = Some v
                else is_Some (mlookup K sec))
               ∧ is_Some (mlookup K sec)).
  { intros S inner Hd. specialize (Hpost S). unfold merge_post in Hpost.
    rewrite Hd in Hpost. destruct Hpost as (sec' & Hsec' & Hfrom).
    exists sec'. split; [done|]. intros K v Hv.
    specialize (Hfrom K). rewrite Hv in Hfrom.
    destruct override; simpl in Hfrom.
    - rewrite Hfrom. by eauto.
    - destruct (mlookup K (default [] (mlookup S self)));
        rewrite Hfrom; by eauto. }
  split; intros S inner Hd; destruct (Hboth S inner Hd) as (sec & Hsec & Hkeys);
    exists sec; (split; [done|]); intros K v Hv;
    destruct (Hkeys K v Hv) as [Hsame Hany]; done.
Qed.

(** ** The properties *)

(** C1 (write policy of [merge]).  When [dict_obj[S]] is a mapping that
    binds [K] to [V]: with [override] true, [merge] ends normally and
    [get(S, K)] is then [V]; with [override] false, [merge] ends
    normally and [get(S, K)] is then the value it had before when there
    was one, and [V] when there was none. *)
Theorem merge_write_policy (self : config) (dict_obj inner : dict)
    (S K : string) (V : pyval) :
  getitem dict_obj S = Ok (PDict inner) → getitem inner K = Ok V →
  (∃ self', merge dict_obj true self = (Ok (), self')
            ∧ get self' S K = Ok V)
  ∧ (∃ self', merge dict_obj false self = (Ok (), self')
              ∧ match get self S K with
                | Ok V0 => get self' S K = Ok V0
                | Raise _ => get self' S K = Ok V
                end).
Proof.
  intros Hd%getitem_Ok HV%getitem_Ok. split.
  - destruct (merge_spec self dict_obj true) as (self' & Hrun & Hpost).
    exists self'. split; [done|].
    specialize (Hpost S). unfold merge_post in Hpost. rewrite Hd in Hpost.
    destruct Hpost as (sec' & Hsec' & Hfrom).
    apply get_Ok. exists sec'. split; [done|].
    rewrite Hfrom, HV. done.
  - destruct (merge_spec self dict_obj false) as (self' & Hrun & Hpost).
    exists self'. split; [done|].
    specialize (Hpost S). unfold merge_post in Hpost. rewrite Hd in Hpost.
    destruct Hpost as (sec' & Hsec' & Hfrom).
    destruct (get self S K) as [V0|e] eqn:Hold.
    + apply get_Ok in Hold as (sec & Hsec & HV0).
      apply get_Ok. exists sec'. split; [done|].
      rewrite Hfrom, Hsec. simpl. by rewrite HV0.
    + apply get_Ok. exists sec'. split; [done|].
      rewrite Hfrom, HV.
      destruct (mlookup K (default [] (mlookup S self))) as [V0|] eqn:Hcell;
        [|done].
      destruct (mlookup S self) as [sec|] eqn:Hsec; [|done].
      simpl in Hcell. rewrite (proj2 (get_Ok self S K V0)) in Hold by eauto.
      done.
Qed.

Lemma merge_write_policy_witness :
  (∃ self', merge Sample.incoming true Sample.store = (Ok (), self')
            ∧ get self' "sec" "k" = Ok (PStr "v2"))
  ∧ (∃ self', merge Sample.incoming false Sample.store = (Ok (), self')
              ∧ get self' "sec" "k" = Ok (PStr "v1")).
Proof.
  exact (merge_write_policy Sample.store Sample.incoming _ "sec" "k" (PStr "v2")
           eq_refl eq_refl).
Defined.

(** C2 ([parse_file] on a missing file).  When the resolved path does
    not exist, [parse_file] returns [False], writes the one debug line
    and leaves the store as it was, section by section and key by key. *)
Theorem parse_file_missing (fs : filesystem) (self : config) (file_path : string) :
  path_exists fs (abspath fs (expanduser fs file_path)) = false →
  ∃ self',
    parse_file fs file_path self =
      ( ["config file '" +:+ abspath fs (expanduser fs file_path)
           +:+ "' does not exist, skipping..."],
        (Ok false, self') )
    ∧ self' = self
    ∧ get_sections self' = get_sections self
    ∧ (∀ S, keys self' S = keys self S)
    ∧ (∀ S K, get self' S K = get self S K).
Proof.
  intros Hmissing. exists self. unfold parse_file. by rewrite Hmissing.
Qed.

Lemma parse_file_missing_witness :
  ∃ self',
    parse_file Sample.fs "other.conf" Sample.store =
      ( ["config file '/etc/other.conf' does not exist, skipping..."],
        (Ok false, self') )
    ∧ self' = Sample.store
    ∧ get_sections self' = get_sections Sample.store
    ∧ (∀ S, keys self' S = keys Sample.store S)
    ∧ (∀ S K, get self' S K = get Sample.store S K).
Proof.
  exact (parse_file_missing Sample.fs Sample.store "other.conf" eq_refl).
Defined.

(** C3 (what [merge] takes from [dict_obj]).  For every [dict_obj] and
    [override], [merge] ends normally and: a name whose entry is a
    mapping is a section afterwards; a name whose entry is not a
    mapping is left exactly as it was (no section appears under it and
    nothing is written to it); and a value met inside a mapping is
    stored whole under its own key, so every binding found afterwards
    was either there before or is [dict_obj[S][K]] itself. *)
Theorem merge_two_levels (self : config) (dict_obj : dict) (override : bool) :
  ∃ self', merge dict_obj override self = (Ok (), self')
    ∧ (∀ S inner, getitem dict_obj S = Ok (PDict inner) →
         has_section self' S = true)
    ∧ (∀ S v, getitem dict_obj S = Ok v → is_dict v = false →
         has_section self' S = has_section self S
         ∧ getitem self' S = getitem self S)
    ∧ (∀ S inner K V,
         getitem dict_obj S = Ok (PDict inner) → getitem inner K = Ok V →
         ∃ V', get self' S K = Ok V' ∧ (V' = V ∨ get self S K = Ok V'))
    ∧ (∀ S K V', get self' S K = Ok V' →
         get self S K = Ok V'
         ∨ ∃ inner, getitem dict_obj S = Ok (PDict inner)
                    ∧ getitem inner K = Ok V').
Proof.
  destruct (merge_spec self dict_obj override) as (self' & Hrun & Hpost).
  exists self'. split; [done|]. split_and!.
  - intros S inner Hd%getitem_Ok. specialize (Hpost S).
    unfold merge_post in Hpost. rewrite Hd in Hpost.
    destruct Hpost as (sec' & Hsec' & _).
    apply has_section_true, elem_of_get_sections. by eauto.
  - intros S v Hd%getitem_Ok Hv. specialize (Hpost S).
    unfold merge_post in Hpost. rewrite Hd in Hpost.
    assert (Hsame : mlookup S self' = mlookup S self) by by destruct v.
    split; [by apply has_section_ext|by unfold getitem; rewrite Hsame].
  - intros S inner K V Hd%getitem_Ok HV%getitem_Ok. specialize (Hpost S).
    unfold merge_post in Hpost. rewrite Hd in Hpost.
    destruct Hpost as (sec' & Hsec' & Hfrom). specialize (Hfrom K).
    rewrite HV in Hfrom.
    destruct override; simpl in Hfrom.
    + exists V. split; [|by left]. apply get_Ok. by eauto.
    + destruct (mlookup S self) as [sec|] eqn:Hsec; simpl in Hfrom.
      * destruct (mlookup K sec) as [V0|] eqn:HV0.
        -- exists V0. split; [apply get_Ok; by eauto|].
           right. apply get_Ok. by eauto.
        -- exists V. split; [apply get_Ok; by eauto|by left].
      * exists V. split; [apply get_Ok; by eauto|by left].
  - intros S K V' (sec' & Hsec' & HV')%get_Ok. specialize (Hpost S).
    unfold merge_post in Hpost.
    destruct (mlookup S dict_obj) as [v|] eqn:Hd.
    2: { left. apply get_Ok. exists sec'. by rewrite <-Hpost. }
    destruct (is_dict v) eqn:Hv.
    2: { left. apply get_Ok. exists sec'. split; [|done].
         rewrite <-Hsec'. symmetry. by destruct v. }
    destruct v as [| | | | |inner]; try done.
    destruct Hpost as (sec'' & Hsec'' & Hfrom).
    assert (sec'' = sec') as -> by congruence.
    specialize (Hfrom K). rewrite HV' in Hfrom.
    assert (Hcases : mlookup K (default [] (mlookup S self)) = Some V'
                     ∨ mlookup K inner = Some V').
    { destruct override; simpl in Hfrom.
      - destruct (mlookup K inner); [by right|by left].
      - destruct (mlookup K (default [] (mlookup S self))); [by left|by right]. }
    destruct Hcases as [Hold|Hnew].
    + left. destruct (mlookup S self) as [sec|] eqn:Hsec; [|done].
      apply get_Ok. by eauto.
    + right. exists inner. by rewrite !getitem_Ok.
Qed.

(** C4 ([parse_file] on an existing, well-formed file).  When the
    resolved path exists and parses, [parse_file] returns [True] and the
    store it leaves is the one [merge] with [override] on makes of the
    file's contents: every section of the file is listed by
    [get_sections], [get_section_dict] gives its values as the file has
    them, every section that was there is still there, and a key that was
    there still has a value -- its old one, or the file's. *)
Theorem parse_file_existing (fs : filesystem) (self : config)
    (file_path : string) (dict_obj : dict) :
  path_exists fs (abspath fs (expanduser fs file_path)) = true →
  read_config fs (abspath fs (expanduser fs file_path)) = Ok dict_obj →
  ∃ self',
    parse_file fs file_path self =
      ( ["config file '" +:+ abspath fs (expanduser fs file_path)
           +:+ "' exists, loading settings..."],
        (Ok true, self') )
    ∧ merge dict_obj true self = (Ok (), self')
    ∧ (∀ S inner, getitem dict_obj S = Ok (PDict inner) →
         S ∈ get_sections self'
         ∧ ∃ dd, get_section_dict self' S = Ok dd
                 ∧ ∀ K V, getitem inner K = Ok V →
                     get self' S K = Ok V ∧ getitem dd K = Ok V)
    ∧ (∀ S, S ∈ get_sections self → S ∈ get_sections self')
    ∧ (∀ S K V0, get self S K = Ok V0 →
         ∃ V', get self' S K = Ok V'
               ∧ (V' = V0
                  ∨ ∃ inner, getitem dict_obj S = Ok (PDict inner)
                             ∧ getitem inner K = Ok V')).
Proof.
  intros Hexists Hread.
  destruct (merge_spec self dict_obj true) as (self' & Hrun & Hpost).
  exists self'. split_and!.
  - unfold parse_file. rewrite Hexists.
    unfold mbind, M_bind, reading. by rewrite Hread, Hrun.
  - done.
  - intros S inner Hd%getitem_Ok. specialize (Hpost S).
    unfold merge_post in Hpost. rewrite Hd in Hpost.
    destruct Hpost as (sec' & Hsec' & Hfrom).
    split; [apply elem_of_get_sections; by eauto|].
    destruct (get_section_dict_lookup self' S sec' Hsec') as (dd & Hdd & Hsame & _).
    exists dd. split; [done|]. intros K V HV%getitem_Ok.
    assert (mlookup K sec' = Some V) as HK.
    { rewrite Hfrom. simpl. by rewrite HV. }
    split; [apply get_Ok; by eauto|]. apply getitem_Ok. by rewrite Hsame.
  - intros S [sec Hsec]%elem_of_get_sections. apply elem_of_get_sections.
    specialize (Hpost S). unfold merge_post in Hpost.
    destruct (mlookup S dict_obj) as [[| | | | |inner]|];
      try (rewrite Hpost; by eauto).
    destruct Hpost as (sec' & -> & _). by eauto.
  - intros S K V0 (sec & Hsec & HV0)%get_Ok.
    specialize (Hpost S). unfold merge_post in Hpost.
    assert (Hkept : mlookup S self' = mlookup S self →
                    ∃ V', get self' S K = Ok V' ∧
                      (V' = V0 ∨ ∃ inner, getitem dict_obj S = Ok (PDict inner)
                                          ∧ getitem inner K = Ok V')).
    { intros Hsame. exists V0. split; [|by left].
      apply get_Ok. exists sec. by rewrite Hsame. }
    destruct (mlookup S dict_obj) as [[| | | | |inner]|] eqn:Hd; try by auto.
    destruct Hpost as (sec' & Hsec' & Hfrom). specialize (Hfrom K).
    rewrite Hsec in Hfrom. simpl in Hfrom. rewrite HV0 in Hfrom.
    destruct (mlookup K inner) as [V|] eqn:HV.
    + exists V. split; [apply get_Ok; by eauto|].
      right. exists inner. by rewrite !getitem_Ok.
    + exists V0. split; [apply get_Ok; by eauto|by left].
Qed.

Lemma parse_file_existing_witness :
  ∃ self',
    parse_file Sample.fs "app.conf" Sample.store =
      ( ["config file '/etc/app.conf' exists, loading settings..."],
        (Ok true, self') )
    ∧ merge Sample.incoming true Sample.store = (Ok (), self')
    ∧ (∀ S inner, getitem Sample.incoming S = Ok (PDict inner) →
         S ∈ get_sections self'
         ∧ ∃ dd, get_section_dict self' S = Ok dd
                 ∧ ∀ K V, getitem inner K = Ok V →
                     get self' S K = Ok V ∧ getitem dd K = Ok V)
    ∧ (∀ S, S ∈ get_sections Sample.store → S ∈ get_sections self')
    ∧ (∀ S K V0, get Sample.store S K = Ok V0 →
         ∃ V', get self' S K = Ok V'
               ∧ (V' = V0
                  ∨ ∃ inner, getitem Sample.incoming S = Ok (PDict inner)
                             ∧ getitem inner K = Ok V')).
Proof.
  exact (parse_file_existing Sample.fs Sample.store "app.conf" Sample.incoming
           eq_refl eq_refl).
Defined.

(** C5 ([set] needs its section).  When section [S] exists, [set(S, K,
    V)] ends normally, [K] is a key of [S] afterwards with value [V],
    whether or not it was one before, and the list of sections is the
    same.  When [S] does not exist, [set] raises [KeyError] for [S] and
    the store is as it was: no section is made. *)
Theorem set_needs_section (self : config) (S K : string) (V : pyval) :
  (has_section self S = true →
     ∃ self', set S K V self = (Ok (), self')
       ∧ (∃ ks, keys self' S = Ok ks ∧ K ∈ ks)
       ∧ get self' S K = Ok V
       ∧ get_sections self' = get_sections self)
  ∧ (has_section self S = false →
       set S K V self = (Raise (KeyError S), self)).
Proof.
  split.
  - intros [sec Hsec]%has_section_true%elem_of_get_sections.
    rewrite (set_Ok self S K V sec Hsec). eexists; split; [done|].
    split_and!.
    + exists (mkeys (setitem sec K V)).
      split; [apply keys_Ok; rewrite mlookup_setitem_eq; by eauto|].
      apply elem_of_mkeys_setitem. by left.
    + apply get_Ok. exists (setitem sec K V).
      by rewrite !mlookup_setitem_eq.
    + apply mkeys_setitem_present, elem_of_mkeys. by eauto.
  - intros Hno.
    apply set_Raise, not_elem_of_mkeys. by apply has_section_false.
Qed.

Lemma set_needs_section_witness :
  (∃ self', set "sec" "fresh" (PInt 7) Sample.store = (Ok (), self')
     ∧ (∃ ks, keys self' "sec" = Ok ks ∧ "fresh" ∈ ks)
     ∧ get self' "sec" "fresh" = Ok (PInt 7)
     ∧ get_sections self' = get_sections Sample.store)
  ∧ set "missing" "fresh" (PInt 7) Sample.store
      = (Raise (KeyError "missing"), Sample.store).
Proof.
  split.
  - exact (proj1 (set_needs_section Sample.store "sec" "fresh" (PInt 7)) eq_refl).
  - exact (proj2 (set_needs_section Sample.store "missing" "fresh" (PInt 7)) eq_refl).
Defined.

(** C6 ([set] then [get]).  When section [S] exists, [set(S, K, V)]
    ends normally and [get(S, K)] then returns [V]. *)
Theorem set_get_roundtrip (self : config) (S K : string) (V : pyval) :
  has_section self S = true →
  ∃ self', set S K V self = (Ok (), self') ∧ get self' S K = Ok V.
Proof.
  intros [sec Hsec]%has_section_true%elem_of_get_sections.
  exists (setitem self S (setitem sec K V)). split; [by apply set_Ok|].
  apply get_Ok. exists (setitem sec K V). by rewrite !mlookup_setitem_eq.
Qed.

Lemma set_get_roundtrip_witness :
  ∃ self', set "sec" "k" (PList [PStr "a"; PStr "b"]) Sample.store = (Ok (), self')
           ∧ get self' "sec" "k" = Ok (PList [PStr "a"; PStr "b"]).
Proof.
  exact (set_get_roundtrip Sample.store "sec" "k" (PList [PStr "a"; PStr "b"])
           eq_refl).
Defined.

(** C7 ([get_section_dict]).  When section [S] exists,
    [get_section_dict(S)] returns a dictionary whose keys are exactly
    those of [keys(S)], each once, and which maps each of them to
    [get(S, k)]. *)
Theorem get_section_dict_keys_values (self : config) (S : string) :
  has_section self S = true →
  ∃ dd ks, get_section_dict self S = Ok dd
    ∧ keys self S = Ok ks
    ∧ (∀ k, k ∈ mkeys dd ↔ k ∈ ks)
    ∧ NoDup (mkeys dd)
    ∧ (∀ k, k ∈ ks → ∃ v, getitem dd k = Ok v ∧ get self S k = Ok v).
Proof.
  intros [sec Hsec]%has_section_true%elem_of_get_sections.
  destruct (get_section_dict_lookup self S sec Hsec) as (dd & Hrun & Hsame & Hnd).
  exists dd, (mkeys sec). split_and!; [done| | |done|].
  - apply keys_Ok. by eauto.
  - intros k. by rewrite !elem_of_mkeys, Hsame.
  - intros k [v Hv]%elem_of_mkeys. exists v.
    split; [apply getitem_Ok; by rewrite Hsame|apply get_Ok; by eauto].
Qed.

Lemma get_section_dict_keys_values_witness :
  ∃ dd ks, get_section_dict Sample.store "sec" = Ok dd
    ∧ keys Sample.store "sec" = Ok ks
    ∧ (∀ k, k ∈ mkeys dd ↔ k ∈ ks)
    ∧ NoDup (mkeys dd)
    ∧ (∀ k, k ∈ ks → ∃ v, getitem dd k = Ok v ∧ get Sample.store "sec" k = Ok v).
Proof.
  exact (get_section_dict_keys_values Sample.store "sec" eq_refl).
Defined.

(** C8 ([add_section] twice).  [add_section(S)] never raises; a second
    call leaves the store the first call made, so the two calls in a row
    do what one does; and a section that already exists keeps all it
    holds. *)
Theorem add_section_idempotent (self : config) (S : string) :
  ∃ self1, add_section S self = (Ok (), self1)
    ∧ add_section S self1 = (Ok (), self1)
    ∧ (add_section S ≫= λ _, add_section S) self = add_section S self
    ∧ (∀ sec, getitem self S = Ok sec → self1 = self ∧ getitem self1 S = Ok sec).
Proof.
  destruct (mlookup S self) as [sec|] eqn:Hsec.
  - exists self. rewrite add_section_present by eauto.
    split_and!; try done.
    unfold mbind, M_bind. by rewrite !add_section_present by eauto.
  - exists (setitem self S []). rewrite add_section_absent by done.
    assert (Hagain : add_section S (setitem self S []) = (Ok (), setitem self S [])).
    { apply add_section_present. rewrite mlookup_setitem_eq. by eauto. }
    split_and!; try done.
    + unfold mbind, M_bind. by rewrite add_section_absent.
    + intros sec Hsec'%getitem_Ok. congruence.
Qed.

(** C9 ([has_section] and [add_section]).  A name that is not among
    [get_sections()] has [has_section] false, and true once
    [add_section] has run; and [has_section(S)] is true exactly when [S]
    is among [get_sections()]. *)
Theorem has_section_add_section (self : config) (S : string) :
  (S ∉ get_sections self →
     has_section self S = false
     ∧ ∃ self', add_section S self = (Ok (), self')
                ∧ has_section self' S = true)
  ∧ (has_section self S = true ↔ S ∈ get_sections self).
Proof.
  split; [|apply has_section_true].
  intros Hno. split; [by apply has_section_false|].
  exists (setitem self S []).
  split; [by apply add_section_absent, not_elem_of_mkeys|].
  apply has_section_true, elem_of_mkeys_setitem. by left.
Qed.

Lemma has_section_add_section_witness :
  (has_section Sample.store "new" = false
   ∧ ∃ self', add_section "new" Sample.store = (Ok (), self')
              ∧ has_section self' "new" = true)
  ∧ (has_section Sample.store "sec" = true ↔ "sec" ∈ get_sections Sample.store).
Proof.
  split.
  - apply (proj1 (has_section_add_section Sample.store "new")).
    apply not_elem_of_mkeys. reflexivity.
  - exact (proj2 (has_section_add_section Sample.store "sec")).
Defined.

(** C10 (frame of [merge]).  For every store, [dict_obj] and
    [override], [merge] ends normally and: a name whose entry in
    [dict_obj] is not a mapping, or that has no entry, is left exactly
    as it was; inside a section named by a mapping, a key that the
    mapping does not have reads as it did before; every section that was
    there is still there; and every key of a section is still one of its
    keys. *)
Theorem merge_frame (self : config) (dict_obj : dict) (override : bool) :
  ∃ self', merge dict_obj override self = (Ok (), self')
    ∧ (∀ S, (∀ inner, getitem dict_obj S ≠ Ok (PDict inner)) →
         getitem self' S = getitem self S)
    ∧ (∀ S inner K, getitem dict_obj S = Ok (PDict inner) → K ∉ mkeys inner →
         ∀ V, get self' S K = Ok V ↔ get self S K = Ok V)
    ∧ (∀ S, S ∈ get_sections self → S ∈ get_sections self')
    ∧ (∀ S ks, keys self S = Ok ks →
         ∃ ks', keys self' S = Ok ks' ∧ ∀ K, K ∈ ks → K ∈ ks').
Proof.
  destruct (merge_spec self dict_obj override) as (self' & Hrun & Hpost).
  exists self'. split; [done|]. split_and!.
  - intros S Hnot. specialize (Hpost S). unfold merge_post in Hpost.
    unfold getitem at 1 2.
    destruct (mlookup S dict_obj) as [[| | | | |inner]|] eqn:Hd;
      try by rewrite Hpost.
    destruct (Hnot inner). by apply getitem_Ok.
  - intros S inner K Hd%getitem_Ok HK%not_elem_of_mkeys V.
    specialize (Hpost S). unfold merge_post in Hpost. rewrite Hd in Hpost.
    destruct Hpost as (sec' & Hsec' & Hfrom). specialize (Hfrom K).
    rewrite HK, merged_val_None in Hfrom.
    rewrite !get_Ok. split.
    + intros (sec'' & Hsec'' & HV).
      assert (sec'' = sec') as -> by congruence.
      rewrite Hfrom in HV.
      destruct (mlookup S self) as [sec|]; [by eauto|done].
    + intros (sec & Hsec & HV). exists sec'. split; [done|].
      by rewrite Hfrom, Hsec.
  - intros S [sec Hsec]%elem_of_get_sections. apply elem_of_get_sections.
    specialize (Hpost S). unfold merge_post in Hpost.
    destruct (mlookup S dict_obj) as [[| | | | |inner]|];
      try (rewrite Hpost; by eauto).
    destruct Hpost as (sec' & -> & _). by eauto.
  - intros S ks (sec & Hsec & ->)%keys_Ok.
    specialize (Hpost S). unfold merge_post in Hpost.
    assert (Hkept : mlookup S self' = mlookup S self →
      ∃ ks', keys self' S = Ok ks' ∧ ∀ K, K ∈ mkeys sec → K ∈ ks').
    { intros Hsame. exists (mkeys sec). split; [|done].
      apply keys_Ok. exists sec. by rewrite Hsame. }
    destruct (mlookup S dict_obj) as [[| | | | |inner]|]; try by auto.
    destruct Hpost as (sec' & Hsec' & Hfrom).
    exists (mkeys sec'). split; [apply keys_Ok; by eauto|].
    intros K [V0 HV0]%elem_of_mkeys. apply elem_of_mkeys.
    rewrite Hfrom, Hsec. simpl. rewrite HV0.
    destruct override, (mlookup K inner); by eauto.
Qed.

(** ** Further properties of [merge] *)

(** X1 ([merge] twice).  Merging the same dictionary a second time,
    with the same [override] or with [override] off, changes nothing:
    the two calls in a row leave the store one call leaves. *)
Theorem merge_idempotent (self : config) (dict_obj : dict) (override : bool) :
  ∃ self', merge dict_obj override self = (Ok (), self')
    ∧ merge dict_obj override self' = (Ok (), self')
    ∧ merge dict_obj false self' = (Ok (), self')
    ∧ (merge dict_obj override ≫= λ _, merge dict_obj override) self
        = merge dict_obj override self.
Proof.
  destruct (merge_spec self dict_obj override) as (self' & Hrun & Hpost).
  destruct (merge_leaves_nothing self self' dict_obj override Hpost)
    as [Hsame Hoff].
  exists self'. split_and!; [done|by apply merge_noop..|].
  unfold mbind, M_bind. rewrite Hrun. by apply merge_noop.
Qed.

(** X2 ([merge] without [override] over a store that has it all).
    When every section that [dict_obj] names exists and holds every key
    the mapping gives, [merge] with [override] off leaves the store
    exactly as it was, whatever the values are. *)
Theorem merge_defaults_noop (self : config) (dict_obj : dict) :
  (∀ S inner, getitem dict_obj S = Ok (PDict inner) →
     has_section self S = true
     ∧ ∀ K, K ∈ mkeys inner → ∃ V0, get self S K = Ok V0) →
  merge dict_obj false self = (Ok (), self).
Proof.
  intros Hall. apply merge_noop. intros S inner Hd.
  destruct (Hall S inner) as [Hsec Hkeys]; [by apply getitem_Ok|].
  apply has_section_true, elem_of_get_sections in Hsec as [sec Hsec].
  exists sec. split; [done|]. intros K v Hv.
  destruct (Hkeys K) as (V0 & (sec0 & Hsec0 & HV0)%get_Ok).
  { apply elem_of_mkeys. by eauto. }
  assert (sec0 = sec) as -> by congruence. by eauto.
Qed.

Lemma merge_defaults_noop_witness :
  merge [("sec", PDict [("k", PStr "default")]); ("debug", PBool true)]
    false Sample.store = (Ok (), Sample.store).
Proof.
  apply merge_defaults_noop. intros S inner Hd.
  unfold getitem in Hd. simpl in Hd.
  destruct (decide (S = "sec")) as [->|_].
  - injection Hd as <-. split; [reflexivity|].
    intros K ->%list_elem_of_singleton. by eexists.
  - by destruct (decide (S = "debug")).
Defined.

(** X3 ([merge] of a dictionary without mappings).  When no entry of
    [dict_obj] is a mapping -- the empty dictionary included -- [merge]
    leaves the store exactly as it was. *)
Theorem merge_no_mappings (self : config) (dict_obj : dict) (override : bool) :
  forallb (λ entry, negb (is_dict entry.2)) dict_obj = true →
  merge dict_obj override self = (Ok (), self).
Proof.
  intros Hnone. apply merge_noop. intros S inner Hd. exfalso.
  induction dict_obj as [|[k v] d IH]; [done|].
  simpl in Hnone, Hd. apply andb_prop in Hnone as [Hv Hrest].
  destruct (decide (S = k)); [|by apply IH].
  injection Hd as ->. done.
Qed.

Lemma merge_no_mappings_witness :
  merge [("debug", PBool true); ("level", PInt 3)] true Sample.store
    = (Ok (), Sample.store).
Proof.
  exact (merge_no_mappings Sample.store
           [("debug", PBool true); ("level", PInt 3)] true eq_refl).
Defined.

(** X4 ([get_section_dict] then [merge]).  Merging back what
    [get_section_dict(S)] returned, under the name [S], leaves the store
    exactly as it was, with [override] on or off. *)
Theorem get_section_dict_merge_roundtrip (self : config) (S : string)
    (dd : dict) (override : bool) :
  get_section_dict self S = Ok dd →
  merge [(S, PDict dd)] override self = (Ok (), self).
Proof.
  intros Hdd. apply merge_noop. intros S' inner Hd. simpl in Hd.
  destruct (decide (S' = S)) as [->|]; [|done]. injection Hd as <-.
  destruct (mlookup S self) as [sec|] eqn:Hsec.
  2: { unfold get_section_dict, keys, getitem in Hdd. by rewrite Hsec in Hdd. }
  destruct (get_section_dict_lookup self S sec Hsec) as (dd' & Hrun & Hsame & _).
  assert (dd' = dd) as -> by congruence.
  exists sec. split; [done|]. intros K v Hv. rewrite Hsame in Hv.
  destruct override; by eauto.
Qed.

Lemma get_section_dict_merge_roundtrip_witness :
  merge [("sec", PDict [("k", PStr "v1")])] true Sample.store
    = (Ok (), Sample.store).
Proof.
  exact (get_section_dict_merge_roundtrip Sample.store "sec"
           [("k", PStr "v1")] true eq_refl).
Defined.

(** X5 ([parse_file] twice).  Parsing the same existing, well-formed
    file a second time returns [True] again and leaves the store the
    first call made. *)
Theorem parse_file_idempotent (fs : filesystem) (self : config)
    (file_path : string) (dict_obj : dict) :
  path_exists fs (abspath fs (expanduser fs file_path)) = true →
  read_config fs (abspath fs (expanduser fs file_path)) = Ok dict_obj →
  ∃ lines self',
    parse_file fs file_path self = (lines, (Ok true, self'))
    ∧ parse_file fs file_path self' = (lines, (Ok true, self')).
Proof.
  intros Hexists Hread.
  destruct (merge_spec self dict_obj true) as (self' & Hrun & Hpost).
  destruct (merge_leaves_nothing self self' dict_obj true Hpost) as [Hsame _].
  apply merge_noop in Hsame.
  eexists _, self'. unfold parse_file. rewrite Hexists.
  unfold mbind, M_bind, reading. rewrite Hread, Hrun, Hsame. done.
Qed.

Lemma parse_file_idempotent_witness :
  ∃ lines self',
    parse_file Sample.fs "app.conf" Sample.store = (lines, (Ok true, self'))
    ∧ parse_file Sample.fs "app.conf" self' = (lines, (Ok true, self')).
Proof.
  exact (parse_file_idempotent Sample.fs Sample.store "app.conf"
           Sample.incoming eq_refl eq_refl).
Defined.

(** X6 ([merge] into a section that was not there).  When [S] is not
    a section and [dict_obj[S]] is a mapping, [merge] makes the section
    with exactly the keys and values of the mapping, with [override] on
    or off. *)
Theorem merge_new_section (self : config) (dict_obj inner : dict)
    (S : string) (override : bool) :
  has_section self S = false → getitem dict_obj S = Ok (PDict inner) →
  ∃ self' ks dd, merge dict_obj override self = (Ok (), self')
    ∧ keys self' S = Ok ks ∧ (∀ K, K ∈ ks ↔ K ∈ mkeys inner)
    ∧ (∀ K, get self' S K = getitem inner K)
    ∧ get_section_dict self' S = Ok dd
    ∧ (∀ K, getitem dd K = getitem inner K).
Proof.
  intros Hno%has_section_false%not_elem_of_mkeys Hd%getitem_Ok.
  destruct (merge_spec self dict_obj override) as (self' & Hrun & Hpost).
  specialize (Hpost S). unfold merge_post in Hpost.
  rewrite Hd, Hno in Hpost. destruct Hpost as (sec' & Hsec' & Hfrom).
  assert (Hsame : ∀ K, mlookup K sec' = mlookup K inner).
  { intros K. rewrite Hfrom. simpl. by destruct override, (mlookup K inner). }
  destruct (get_section_dict_lookup self' S sec' Hsec') as (dd & Hdd & Hcopy & _).
  exists self', (mkeys sec'), dd. split_and!; [done| | | |done|].
  - apply keys_Ok. by eauto.
  - intros K. by rewrite !elem_of_mkeys, Hsame.
  - intros K. rewrite get_unfold, Hsec'. unfold getitem. by rewrite Hsame.
  - intros K. unfold getitem. by rewrite Hcopy, Hsame.
Qed.

Lemma merge_new_section_witness :
  ∃ self' ks dd, merge Sample.incoming false Sample.store = (Ok (), self')
    ∧ keys self' "new" = Ok ks ∧ (∀ K, K ∈ ks ↔ K ∈ mkeys [("x", PStr "1")])
    ∧ (∀ K, get self' "new" K = getitem [("x", PStr "1")] K)
    ∧ get_section_dict self' "new" = Ok dd
    ∧ (∀ K, getitem dd K = getitem [("x", PStr "1")] K).
Proof.
  exact (merge_new_section Sample.store Sample.incoming _ "new" false
           eq_refl eq_refl).
Defined.

(** X7 (the sections after [merge]).  [merge] lists the sections that
    were there first, in their order; and a name is a section afterwards
    exactly when it was one before or [dict_obj] maps it to a mapping. *)
Theorem merge_sections_listing (self : config) (dict_obj : dict)
    (override : bool) :
  ∃ self', merge dict_obj override self = (Ok (), self')
    ∧ get_sections self `prefix_of` get_sections self'
    ∧ ∀ S, S ∈ get_sections self' ↔
           S ∈ get_sections self ∨ ∃ inner, getitem dict_obj S = Ok (PDict inner).
Proof.
  destruct (merge_spec self dict_obj override) as (self' & Hrun & Hpost).
  exists self'. split_and!; [done|by eapply merge_keeps_order|].
  intros S. specialize (Hpost S). unfold merge_post in Hpost.
  rewrite !elem_of_get_sections. unfold getitem.
  destruct (mlookup S dict_obj) as [v|] eqn:Hd.
  2: { rewrite Hpost. split; [by left|]. by intros [?|[? ?]]. }
  destruct (is_dict v) eqn:Hv.
  - destruct v as [| | | | |inner]; try done.
    destruct Hpost as (sec' & -> & _). split; by eauto.
  - assert (mlookup S self' = mlookup S self) as -> by by destruct v.
    split; [by left|]. intros [?|[inner [= ->]]]; done.
Qed.

(** X8 ([merge] without [override] keeps what is there).  With
    [override] off, every key that had a value still has that value
    after [merge], in every section and whatever [dict_obj] holds. *)
Theorem merge_keeps_existing_values (self : config) (dict_obj : dict) :
  ∃ self', merge dict_obj false self = (Ok (), self')
    ∧ ∀ S K V0, get self S K = Ok V0 → get self' S K = Ok V0.
Proof.
  destruct (merge_spec self dict_obj false) as (self' & Hrun & Hpost).
  exists self'. split; [done|].
  intros S K V0 (sec & Hsec & HV0)%get_Ok. apply get_Ok.
  specialize (Hpost S). unfold merge_post in Hpost.
  destruct (mlookup S dict_obj) as [[| | | | |inner]|];
    try (exists sec; by rewrite Hpost).
  destruct Hpost as (sec' & Hsec' & Hfrom). exists sec'. split; [done|].
  rewrite Hfrom, Hsec. simpl. by rewrite HV0.
Qed.

(** X9 ([override] only matters where keys clash).  When none of the
    keys that [dict_obj] gives has a value yet, [merge] with [override]
    on and [merge] with [override] off leave stores with the same
    sections and the same value under every key. *)
Theorem merge_override_irrelevant (self : config) (dict_obj : dict) :
  (∀ S inner K V0, getitem dict_obj S = Ok (PDict inner) →
     K ∈ mkeys inner → get self S K ≠ Ok V0) →
  ∃ self1 self2,
    merge dict_obj true self = (Ok (), self1)
    ∧ merge dict_obj false self = (Ok (), self2)
    ∧ (∀ S, has_section self1 S = has_section self2 S)
    ∧ (∀ S K, get self1 S K = get self2 S K).
Proof.
  intros Hfresh.
  destruct (merge_spec self dict_obj true) as (self1 & Hrun1 & Hpost1).
  destruct (merge_spec self dict_obj false) as (self2 & Hrun2 & Hpost2).
  exists self1, self2. split_and!; [done..| |].
  - intros S. specialize (Hpost1 S). specialize (Hpost2 S).
    unfold merge_post in *.
    destruct (mlookup S dict_obj) as [[| | | | |inner]|];
      try (apply has_section_ext; congruence).
    destruct Hpost1 as (sec1 & Hsec1 & _), Hpost2 as (sec2 & Hsec2 & _).
    transitivity true; [|symmetry];
      apply has_section_true, elem_of_get_sections; by eauto.
  - intros S K. specialize (Hpost1 S). specialize (Hpost2 S).
    unfold merge_post in *.
    rewrite !get_unfold.
    destruct (mlookup S dict_obj) as [[| | | | |inner]|] eqn:Hd;
      try (by rewrite Hpost1, Hpost2).
    destruct Hpost1 as (sec1 & -> & Hfrom1), Hpost2 as (sec2 & -> & Hfrom2).
    unfold getitem. rewrite Hfrom1, Hfrom2. simpl.
    destruct (mlookup K inner) as [v|] eqn:Hv;
      [|by destruct (mlookup K (default [] (mlookup S self)))].
    destruct (mlookup K (default [] (mlookup S self))) as [V0|] eqn:Hold; [|done].
    destruct (Hfresh S inner K V0); [by apply getitem_Ok| |].
    + apply elem_of_mkeys. by eauto.
    + destruct (mlookup S self) as [sec|] eqn:Hsec; [|done].
      apply get_Ok. by eauto.
Qed.

Lemma merge_override_irrelevant_witness :
  ∃ self1 self2,
    merge Sample.incoming true [] = (Ok (), self1)
    ∧ merge Sample.incoming false [] = (Ok (), self2)
    ∧ (∀ S, has_section self1 S = has_section self2 S)
    ∧ (∀ S K, get self1 S K = get self2 S K).
Proof.
  apply merge_override_irrelevant. intros S inner K V0 _ _. discriminate.
Defined.

(** ** Further properties of the other methods *)

(** X10 (how the readers fail).  For a name that is not a section,
    [keys], [get] and [get_section_dict] all raise [KeyError] for that
    name; for a section that does not hold the key, [get] raises
    [KeyError] for the key. *)
Theorem readers_raise_KeyError (self : config) (S K : string) :
  (has_section self S = false →
     keys self S = Raise (KeyError S)
     ∧ get self S K = Raise (KeyError S)
     ∧ get_section_dict self S = Raise (KeyError S))
  ∧ (∀ ks, keys self S = Ok ks → K ∉ ks → get self S K = Raise (KeyError K)).
Proof.
  split.
  - intros Hno%has_section_false%not_elem_of_mkeys.
    assert (keys self S = Raise (KeyError S)) as Hkeys
      by by rewrite keys_unfold, Hno.
    split_and!; [done|by rewrite get_unfold, Hno|].
    unfold get_section_dict. by rewrite Hkeys.
  - intros ks (sec & Hsec & ->)%keys_Ok HK%not_elem_of_mkeys.
    rewrite get_unfold, Hsec. unfold getitem. by rewrite HK.
Qed.

Lemma readers_raise_KeyError_witness :
  (keys Sample.store "nope" = Raise (KeyError "nope")
   ∧ get Sample.store "nope" "k" = Raise (KeyError "nope")
   ∧ get_section_dict Sample.store "nope" = Raise (KeyError "nope"))
  ∧ get Sample.store "sec" "absent" = Raise (KeyError "absent").
Proof.
  split.
  - exact (proj1 (readers_raise_KeyError Sample.store "nope" "k") eq_refl).
  - apply (proj2 (readers_raise_KeyError Sample.store "sec" "absent") ["k"]).
    + reflexivity.
    + by intros ?%list_elem_of_singleton.
Defined.

(** X11 (frame of [set]).  Whether it ends normally or raises,
    [set(S, K, V)] leaves the list of sections as it was, every other
    section exactly as it was, and every other key of [S] reading as
    before. *)
Theorem set_frame (self : config) (S K : string) (V : pyval) :
  ∃ r self', set S K V self = (r, self')
    ∧ get_sections self' = get_sections self
    ∧ (∀ S', S' ≠ S → getitem self' S' = getitem self S')
    ∧ (∀ K', K' ≠ K → get self' S K' = get self S K').
Proof.
  destruct (mlookup S self) as [sec|] eqn:Hsec.
  - rewrite (set_Ok self S K V sec Hsec). eexists _, _. split; [done|].
    split_and!.
    + apply mkeys_setitem_present, elem_of_mkeys. by eauto.
    + intros S' HS. unfold getitem. by rewrite mlookup_setitem_ne.
    + intros K' HK. rewrite !get_unfold, mlookup_setitem_eq, Hsec.
      unfold getitem. by rewrite mlookup_setitem_ne.
  - rewrite (set_Raise self S K V Hsec). by eexists _, _.
Qed.

(** X12 ([set] twice on one key).  Two [set]s in a row on the same
    section and key do what the second one does alone: the last value
    written is the one that stays. *)
Theorem set_last_write_wins (self : config) (S K : string) (V V' : pyval) :
  (set S K V ≫= λ _, set S K V') self = set S K V' self.
Proof.
  unfold mbind, M_bind.
  destruct (mlookup S self) as [sec|] eqn:Hsec.
  - rewrite (set_Ok self S K V sec Hsec), (set_Ok self S K V' sec Hsec).
    rewrite (set_Ok _ S K V' (setitem sec K V)) by by rewrite mlookup_setitem_eq.
    by rewrite !setitem_setitem.
  - by rewrite !(set_Raise self S K _ Hsec).
Qed.

(** X13 ([add_section] on a new name).  When [S] is not a section,
    [add_section(S)] lists it after the sections that were there, as a
    section with no keys, and leaves every other section exactly as it
    was. *)
Theorem add_section_new (self : config) (S : string) :
  has_section self S = false →
  ∃ self', add_section S self = (Ok (), self')
    ∧ get_sections self' = get_sections self ++ [S]
    ∧ keys self' S = Ok []
    ∧ get_section_dict self' S = Ok []
    ∧ (∀ S', S' ≠ S → getitem self' S' = getitem self S').
Proof.
  intros Hno%has_section_false.
  exists (setitem self S []).
  assert (keys (setitem self S []) S = Ok []) as Hkeys
    by by rewrite keys_unfold, mlookup_setitem_eq.
  split_and!.
  - by apply add_section_absent, not_elem_of_mkeys.
  - by apply mkeys_setitem_absent.
  - done.
  - unfold get_section_dict. by rewrite Hkeys.
  - intros S' HS. unfold getitem. by rewrite mlookup_setitem_ne.
Qed.

Lemma add_section_new_witness :
  ∃ self', add_section "new" Sample.store = (Ok (), self')
    ∧ get_sections self' = get_sections Sample.store ++ ["new"]
    ∧ keys self' "new" = Ok []
    ∧ get_section_dict self' "new" = Ok []
    ∧ (∀ S', S' ≠ "new" → getitem self' S' = getitem Sample.store S').
Proof.
  exact (add_section_new Sample.store "new" eq_refl).
Defined.

(** X14 ([parse_file] on a file that does not parse).  When the
    resolved path exists but the parser raises, [parse_file] raises the
    same error after the one debug line, and the store is as it was:
    nothing is merged. *)
Theorem parse_file_unreadable (fs : filesystem) (self : config)
    (file_path : string) (e : exn) :
  path_exists fs (abspath fs (expanduser fs file_path)) = true →
  read_config fs (abspath fs (expanduser fs file_path)) = Raise e →
  parse_file fs file_path self =
    ( ["config file '" +:+ abspath fs (expanduser fs file_path)
         +:+ "' exists, loading settings..."],
      (Raise e, self) ).
Proof.
  intros Hexists Hread. unfold parse_file. rewrite Hexists.
  unfold mbind, M_bind, reading. by rewrite Hread.
Qed.

Lemma parse_file_unreadable_witness :
  parse_file
    {| expanduser p := p; abspath p := p; path_exists p := true;
       read_config p := Raise (ConfigObjError "Invalid line at line 1.") |}
    "/etc/broken.conf" Sample.store =
    ( ["config file '/etc/broken.conf' exists, loading settings..."],
      (Raise (ConfigObjError "Invalid line at line 1."), Sample.store) ).
Proof.
  exact (parse_file_unreadable
           {| expanduser p := p; abspath p := p; path_exists p := true;
              read_config p := Raise (ConfigObjError "Invalid line at line 1.") |}
           Sample.store "/etc/broken.conf"
           (ConfigObjError "Invalid line at line 1.") eq_refl eq_refl).
Defined.

(** ** Worked examples *)

(** [merge({"sec": {"k": "v1"}})] on an empty handler gives the sample
    store. *)
Example merge_into_empty :
  merge [("sec", PDict [("k", PStr "v1")])] true [] = (Ok (), Sample.store).
Proof. reflexivity. Qed.

(** ... followed by [merge({"sec": {"k": "v2"}}, override=True)] *)
Example merge_twice_override :
  ∃ self', (merge [("sec", PDict [("k", PStr "v1")])] true ≫= λ _,
            merge [("sec", PDict [("k", PStr "v2")])] true) [] = (Ok (), self')
           ∧ get self' "sec" "k" = Ok (PStr "v2").
Proof. eexists. split; reflexivity. Qed.

(** ... followed by [merge({"sec": {"k": "v2"}}, override=False)] *)
Example merge_twice_keep :
  ∃ self', (merge [("sec", PDict [("k", PStr "v1")])] true ≫= λ _,
            merge [("sec", PDict [("k", PStr "v2")])] false) [] = (Ok (), self')
           ∧ get self' "sec" "k" = Ok (PStr "v1").
Proof. eexists. split; reflexivity. Qed.

(** The sample file merged into the sample store: the mapping under
    ["nested"] is stored whole, and ["debug"] makes no section. *)
Example merge_sample :
  merge Sample.incoming true Sample.store =
    (Ok (), [("sec", [("k", PStr "v2"); ("nested", PDict [("a", PInt 1)])]);
             ("new", [("x", PStr "1")])]).
Proof. reflexivity. Qed.

Example get_section_dict_missing :
  get_section_dict Sample.store "nope" = Raise (KeyError "nope").
Proof. reflexivity. Qed.
